(** * The typed event dispatcher of examples/game_event/main.cpp

    A shallow embedding of [EventDispatcher] (main.cpp:76-98) together with
    the class hierarchy it relies on, and the properties of registration
    ([addEventListener]) and publication ([dispatchEvent]).

    The listener table is a [std::unordered_map] from [std::type_index] to a
    [std::vector] of closures; it is modelled as a [gmap] from type indices
    to lists.  Every closure stored in the table is an instance of the one
    lambda of [addEventListener] (main.cpp:83-87), so a closure is
    represented by what that lambda captures: the template argument [T] and
    the [listener] pointer.  Calling the closure is [invoke].

    The handlers [onEvent] are pure virtual in [TypedEventListener<T>]; what
    a publish does to the outside world is the sequence of [onEvent] calls it
    makes, which the model records in a call log. *)

From Stdlib Require Import SpecFloat.
From stdpp Require Import gmap list strings.

(** ** Run-time type information

    [typeid e] is [std::type_index(typeid(e))] for an object seen through a
    [const GameEvent&]: the class of the most derived object.
    [is_base_of B D] says that [B] is a proper, public, unambiguous base
    class of [D]. *)
Class Polymorphic (TypeIndex Object : Type) := {
  typeid : Object → TypeIndex;
  is_base_of : TypeIndex → TypeIndex → bool;
}.

Section dispatcher.
Context {TypeIndex : Type} `{Countable TypeIndex}.
Context {GameEvent : Type} `{!Polymorphic TypeIndex GameEvent}.
Context {Listener : Type}.

(** [dynamic_cast<const T*>(&e)]: the object itself when its class is [T]
    or derives from [T], the null pointer ([None]) otherwise.  The pointer
    form of the cast never throws. *)
Definition dynamic_cast (T : TypeIndex) (e : GameEvent) : option GameEvent :=
  if decide (typeid e = T) then Some e
  else if is_base_of T (typeid e) then Some e
  else None.

(** One call [listener->onEvent(event)] through a
    [TypedEventListener<T>*]: who was called, through which capability,
    with which event. *)
Record Call := mkCall {
  callee : Listener;
  capability : TypeIndex;
  argument : GameEvent;
}.

(** The observable world: the [onEvent] calls made so far, oldest first. *)
Definition World : Type := list Call.

(** [TypedEventListener<T>::onEvent] (main.cpp:42), called on [listener]. *)
Definition onEvent (T : TypeIndex) (listener : Listener) (event : GameEvent)
    (w : World) : World :=
  w ++ [mkCall listener T event].

(** The closure built at main.cpp:83: its captures. *)
Record Closure := mkClosure {
  closure_T : TypeIndex;
  closure_listener : Listener;
}.

(** Calling the closure on [e] (main.cpp:83-87). *)
Definition invoke (f : Closure) (e : GameEvent) (w : World) : World :=
  match dynamic_cast (closure_T f) e with
  | Some typedEvent => onEvent (closure_T f) (closure_listener f) typedEvent w
  | None => w
  end.

(** [class EventDispatcher] (main.cpp:76-79). *)
Record EventDispatcher := mkEventDispatcher {
  listeners : gmap TypeIndex (list Closure);
}.

(** A default-constructed dispatcher, as the provider at main.cpp:106
    returns it. *)
Definition new_EventDispatcher : EventDispatcher :=
  mkEventDispatcher ∅.

(** [addEventListener<T>(listener)] (main.cpp:81-88).  [operator[]]
    creates an empty vector when the key is absent; [push_back] appends. *)
Definition addEventListener (T : TypeIndex) (listener : Listener)
    (this : EventDispatcher) : EventDispatcher :=
  let slot := default [] (listeners this !! T) in
  mkEventDispatcher (<[T := slot ++ [mkClosure T listener]]> (listeners this)).

(** The range-for loop of main.cpp:93-95. *)
Definition for_each (v : list Closure) (event : GameEvent) (w : World) : World :=
  foldl (λ w listener, invoke listener event w) w v.

(** [dispatchEvent(event)] (main.cpp:90-97).  [find] does not insert. *)
Definition dispatchEvent (event : GameEvent) (this : EventDispatcher)
    (w : World) : EventDispatcher * World :=
  match listeners this !! typeid event with
  | Some v => (this, for_each v event w)
  | None => (this, w)
  end.

(** ** Histories of calls on the public interface *)
Inductive Request :=
  | Register (T : TypeIndex) (listener : Listener)
  | Publish (event : GameEvent).

Definition step (s : EventDispatcher * World) (r : Request)
    : EventDispatcher * World :=
  match r with
  | Register T listener => (addEventListener T listener s.1, s.2)
  | Publish event => dispatchEvent event s.1 s.2
  end.

Definition run (reqs : list Request) (s : EventDispatcher * World)
    : EventDispatcher * World :=
  foldl step s reqs.

(** The dispatcher a history leaves behind, starting from a fresh one. *)
Definition after (reqs : list Request) : EventDispatcher :=
  (run reqs (new_EventDispatcher, [])).1.

(** The listeners a history registers for [V], in registration order. *)
Definition registered (V : TypeIndex) (reqs : list Request) : list Listener :=
  omap (λ r, match r with
             | Register T listener =>
                 if decide (T = V) then Some listener else None
             | Publish _ => None
             end) reqs.

(** The entry sequence stored under a key (empty when the key is absent). *)
Definition entries (K : TypeIndex) (this : EventDispatcher) : list Closure :=
  default [] (listeners this !! K).

(** What one publish adds to the world. *)
Definition published (event : GameEvent) (this : EventDispatcher) : list Call :=
  (dispatchEvent event this []).2.

(** How often a publish log calls the handler of [S] for [V]. *)
Definition invocations `{EqDecision Listener} (S : Listener) (V : TypeIndex)
    (w : World) : nat :=
  length (filter (λ c, callee c = S ∧ capability c = V) w).

(** How often a history registers [S] for [V]. *)
Definition registrations `{EqDecision Listener} (S : Listener) (V : TypeIndex)
    (reqs : list Request) : nat :=
  length (filter (S =.) (registered V reqs)).

(** The registrations of a history, publishes dropped. *)
Definition is_Register (r : Request) : bool :=
  match r with Register _ _ => true | Publish _ => false end.

Definition registrations_only (reqs : list Request) : list Request :=
  filter (λ r, is_Register r) reqs.

(** The number of closures the table holds, over all its vectors. *)
Definition closure_count (this : EventDispatcher) : nat :=
  map_fold (λ _ v n, length v + n) 0 (listeners this).

End dispatcher.

Arguments Call : clear implicits.
Arguments World : clear implicits.
Arguments Closure : clear implicits.
Arguments EventDispatcher _ {_ _} _.
Arguments Request : clear implicits.

(** ** The classes and objects of the example program *)
Module Game.

(** The event classes (main.cpp:9-30), as [std::type_index] values. *)
Inductive type_index := GameEvent | PlayerMoveEvent | EnemySpawnEvent.

#[global] Instance type_index_eq_dec : EqDecision type_index.
Proof. solve_decision. Defined.

#[global] Instance type_index_countable : Countable type_index.
Proof.
  refine (inj_countable'
    (λ c, match c with
          | GameEvent => 0 | PlayerMoveEvent => 1 | EnemySpawnEvent => 2
          end)
    (λ n, match n with
          | 0 => GameEvent | 1 => PlayerMoveEvent | _ => EnemySpawnEvent
          end) _).
  by intros [].
Defined.

(** Event objects, named after the constructor that builds them.  [uid] is
    a [uint64_t], the coordinates are [float]s, which the dispatcher only
    passes along. *)
Inductive Object :=
  | new_GameEvent
  | new_PlayerMoveEvent (uid : N) (x y : spec_float)
  | new_EnemySpawnEvent (enemyType : string) (uid : N) (x y : spec_float).

(** [GameEvent] is the only base class, of both other event classes. *)
#[global] Instance game_rtti : Polymorphic type_index Object := {|
  typeid e :=
    match e with
    | new_GameEvent => GameEvent
    | new_PlayerMoveEvent _ _ _ => PlayerMoveEvent
    | new_EnemySpawnEvent _ _ _ _ => EnemySpawnEvent
    end;
  is_base_of B D :=
    match B, D with
    | GameEvent, PlayerMoveEvent | GameEvent, EnemySpawnEvent => true
    | _, _ => false
    end;
|}.

(** The listener objects the injector creates (main.cpp:46-74, 101-107),
    one per concrete listener class. *)
Inductive EventListener :=
  PlayerMovementListener | EnemySpawnListener | PlayerListener.

#[global] Instance EventListener_eq_dec : EqDecision EventListener.
Proof. solve_decision. Defined.

(** The body of the registration loop (main.cpp:117-126). *)
Definition register_listener
    (dispatcher : EventDispatcher type_index EventListener)
    (listener : EventListener) : EventDispatcher type_index EventListener :=
  let d1 :=
    if decide (listener = PlayerMovementListener)
    then addEventListener PlayerMoveEvent listener dispatcher
    else dispatcher in
  let d2 :=
    if decide (listener = EnemySpawnListener)
    then addEventListener EnemySpawnEvent listener d1
    else d1 in
  if decide (listener = PlayerListener)
  then addEventListener EnemySpawnEvent listener
         (addEventListener PlayerMoveEvent listener d2)
  else d2.

(** The float literals of main.cpp:130-131, in binary32. *)
Definition f10 : spec_float := S754_finite false 10485760 (-20).
Definition f20 : spec_float := S754_finite false 10485760 (-19).
Definition f15 : spec_float := S754_finite false 15728640 (-20).
Definition f25 : spec_float := S754_finite false 13107200 (-19).

Definition move_event : Object := new_PlayerMoveEvent 10001 f10 f20.
Definition spawn_event : Object := new_EnemySpawnEvent "Goblin" 10001 f15 f25.

(** [main] (main.cpp:109-134), given the multibindings the injector
    returns; the result is the sequence of handler calls. *)
Definition main (multibindings : list EventListener)
    : World type_index Object EventListener :=
  let dispatcher := foldl register_listener new_EventDispatcher multibindings in
  let '(dispatcher, w) := dispatchEvent move_event dispatcher [] in
  let '(dispatcher, w) := dispatchEvent spawn_event dispatcher w in
  w.

(** The calls [main] makes on the dispatcher, as a history, for the
    multibindings in the order the component declares them. *)
Definition main_history : list (Request type_index Object EventListener) :=
  [Register PlayerMoveEvent PlayerMovementListener;
   Register EnemySpawnEvent EnemySpawnListener;
   Register PlayerMoveEvent PlayerListener;
   Register EnemySpawnEvent PlayerListener;
   Publish move_event;
   Publish spawn_event].

(** The [TypedEventListener<T>] bases of each listener class
    (main.cpp:46, 54, 62-63): the event classes it has an [onEvent] for. *)
Definition handles (listener : EventListener) (T : type_index) : bool :=
  match listener, T with
  | PlayerMovementListener, PlayerMoveEvent => true
  | EnemySpawnListener, EnemySpawnEvent => true
  | PlayerListener, PlayerMoveEvent => true
  | PlayerListener, EnemySpawnEvent => true
  | _, _ => false
  end.

End Game.

(** * Properties *)

Section dispatcher_facts.
Context {TypeIndex : Type} `{Countable TypeIndex}.
Context {GameEvent : Type} `{!Polymorphic TypeIndex GameEvent}.
Context {Listener : Type}.

Implicit Types (T V K : TypeIndex) (e event : GameEvent) (S listener : Listener).
Implicit Types (f : Closure TypeIndex Listener).
Implicit Types (v : list (Closure TypeIndex Listener)).
Implicit Types (w : World TypeIndex GameEvent Listener).
Implicit Types (this d : EventDispatcher TypeIndex Listener).
Implicit Types (reqs : list (Request TypeIndex GameEvent Listener)).

(** ** The narrowing check *)

Lemma dynamic_cast_exact e : dynamic_cast (typeid e) e = Some e.
Proof. unfold dynamic_cast. by rewrite decide_True. Qed.

Lemma dynamic_cast_base T e :
  is_base_of T (typeid e) = true → dynamic_cast T e = Some e.
Proof.
  intros Hbase. unfold dynamic_cast.
  destruct (decide (typeid e = T)); [done|]. by rewrite Hbase.
Qed.

Lemma dynamic_cast_Some T e e' : dynamic_cast T e = Some e' → e' = e.
Proof.
  unfold dynamic_cast. intros Hcast.
  destruct (decide (typeid e = T)); [congruence|].
  destruct (is_base_of T (typeid e)); congruence.
Qed.

(** ** One closure *)

Lemma invoke_hit f e w :
  dynamic_cast (closure_T f) e = Some e →
  invoke f e w = w ++ [mkCall (closure_listener f) (closure_T f) e].
Proof. intros Hcast. unfold invoke, onEvent. by rewrite Hcast. Qed.

Lemma invoke_miss f e w :
  dynamic_cast (closure_T f) e = None → invoke f e w = w.
Proof. intros Hcast. unfold invoke. by rewrite Hcast. Qed.

(** ** The loop *)

Lemma for_each_nil e w : for_each [] e w = w.
Proof. done. Qed.

Lemma for_each_cons f v e w :
  for_each (f :: v) e w = for_each v e (invoke f e w).
Proof. done. Qed.

Lemma for_each_snoc v f e w :
  for_each (v ++ [f]) e w = invoke f e (for_each v e w).
Proof. unfold for_each. by rewrite foldl_app. Qed.

(** The loop only ever extends the world. *)
Lemma for_each_extends v e w : for_each v e w = w ++ for_each v e [].
Proof.
  induction v as [|f v IH] using rev_ind.
  - by rewrite !for_each_nil, app_nil_r.
  - rewrite !for_each_snoc, IH. unfold invoke, onEvent.
    destruct (dynamic_cast (closure_T f) e); [|done].
    by rewrite app_assoc.
Qed.

(** When every closure of the vector expects the class of the event, each
    one calls its handler, in vector order. *)
Lemma for_each_exact v e w :
  Forall (λ f, closure_T f = typeid e) v →
  for_each v e w = w ++ ((λ f, mkCall (closure_listener f) (typeid e) e) <$> v).
Proof.
  intros Hv. revert w. induction Hv as [|f v Hf _ IH]; intros w.
  - by rewrite for_each_nil, app_nil_r.
  - rewrite for_each_cons, IH, invoke_hit.
    + rewrite Hf, <-app_assoc. done.
    + rewrite Hf. apply dynamic_cast_exact.
Qed.

(** ** [dispatchEvent] *)

Lemma dispatchEvent_entries e d w :
  dispatchEvent e d w = (d, for_each (entries (typeid e) d) e w).
Proof.
  unfold dispatchEvent, entries.
  by destruct (listeners d !! typeid e).
Qed.

Lemma dispatchEvent_this e d w : (dispatchEvent e d w).1 = d.
Proof. by rewrite dispatchEvent_entries. Qed.

Lemma dispatchEvent_world e d w :
  (dispatchEvent e d w).2 = w ++ published e d.
Proof.
  unfold published. rewrite !dispatchEvent_entries. simpl.
  apply for_each_extends.
Qed.

(** ** [addEventListener] *)

Lemma lookup_addEventListener T listener d K :
  listeners (addEventListener T listener d) !! K =
    if decide (T = K)
    then Some (entries T d ++ [mkClosure T listener])
    else listeners d !! K.
Proof.
  unfold addEventListener, entries. simpl.
  destruct (decide (T = K)) as [->|Hne].
  - by rewrite lookup_insert_eq.
  - by rewrite lookup_insert_ne.
Qed.

Lemma entries_addEventListener T listener d K :
  entries K (addEventListener T listener d) =
    if decide (T = K)
    then entries K d ++ [mkClosure T listener]
    else entries K d.
Proof.
  unfold entries at 1. rewrite lookup_addEventListener.
  by destruct (decide (T = K)) as [->|Hne].
Qed.

(** ** Histories *)

Lemma run_snoc reqs r s : run (reqs ++ [r]) s = step (run reqs s) r.
Proof. unfold run. by rewrite foldl_app. Qed.

Lemma registered_snoc V reqs r :
  registered V (reqs ++ [r]) = registered V reqs ++ registered V [r].
Proof. unfold registered. by rewrite omap_app. Qed.

(** The table a history builds on top of [d]: under each key, the closures
    of the listeners registered for that key, in registration order. *)
Lemma entries_run K reqs d w :
  entries K (run reqs (d, w)).1 =
    entries K d ++ (mkClosure K <$> registered K reqs).
Proof.
  induction reqs as [|r reqs IH] using rev_ind.
  - simpl. by rewrite app_nil_r.
  - rewrite run_snoc, registered_snoc, fmap_app, app_assoc, <-IH.
    destruct r as [T listener|event]; simpl.
    + rewrite entries_addEventListener.
      destruct (decide (T = K)) as [->|Hne]; simpl; [done|].
      by rewrite app_nil_r.
    + by rewrite dispatchEvent_this, app_nil_r.
Qed.

Lemma entries_after K reqs :
  entries K (after reqs) = mkClosure K <$> registered K reqs.
Proof. unfold after. by rewrite entries_run. Qed.

(** Registration keys every closure under the class it tests for. *)
Lemma after_well_keyed K reqs :
  Forall (λ f, closure_T f = K) (entries K (after reqs)).
Proof. rewrite entries_after. apply Forall_fmap, Forall_true. done. Qed.

(** The calls of one publish after a history. *)
Lemma published_after e reqs :
  published e (after reqs) =
    (λ listener, mkCall listener (typeid e) e) <$> registered (typeid e) reqs.
Proof.
  unfold published. rewrite dispatchEvent_entries. simpl.
  rewrite for_each_exact by apply after_well_keyed.
  rewrite entries_after, <-list_fmap_compose. done.
Qed.

End dispatcher_facts.

(** * The claims *)

Section dispatcher_claims.
Context {TypeIndex : Type} `{Countable TypeIndex}.
Context {GameEvent : Type} `{!Polymorphic TypeIndex GameEvent}.
Context {Listener : Type} `{!EqDecision Listener}.

Implicit Types (T V A B K : TypeIndex) (e event : GameEvent) (S listener : Listener).
Implicit Types (f : Closure TypeIndex Listener).
Implicit Types (c : Call TypeIndex GameEvent Listener).
Implicit Types (w : World TypeIndex GameEvent Listener).
Implicit Types (this d : EventDispatcher TypeIndex Listener).
Implicit Types (reqs : list (Request TypeIndex GameEvent Listener)).

(** Counting the calls of a handler in a log where every call goes through
    capability [V] comes down to counting the callee. *)
Lemma invocations_fmap S V e (ls : list Listener) :
  invocations S V ((λ listener, mkCall listener V e) <$> ls) =
    length (filter (S =.) ls).
Proof.
  unfold invocations. induction ls as [|l ls IH]; [done|].
  rewrite fmap_cons.
  destruct (decide (S = l)) as [->|Hne].
  - rewrite (filter_cons_True (eq l)) by done.
    rewrite (filter_cons_True (λ c, callee c = l ∧ capability c = V)) by done.
    cbn [length]. f_equal. apply IH.
  - rewrite (filter_cons_False (eq S)) by done.
    rewrite (filter_cons_False (λ c, callee c = S ∧ capability c = V))
      by (simpl; intros []; congruence).
    apply IH.
Qed.

Lemma registrations_app S V reqs reqs' :
  registrations S V (reqs ++ reqs') =
    registrations S V reqs + registrations S V reqs'.
Proof.
  unfold registrations, registered.
  by rewrite omap_app, filter_app, length_app.
Qed.

Lemma registered_Register_eq V listener :
  registered V [Register V listener : Request TypeIndex GameEvent Listener]
    = [listener].
Proof. unfold registered. simpl. by rewrite decide_True. Qed.

Lemma registered_Register_ne V T listener :
  T ≠ V →
  registered V [Register T listener : Request TypeIndex GameEvent Listener]
    = [].
Proof. intros Hne. unfold registered. simpl. by rewrite decide_False. Qed.

Lemma registered_app V reqs reqs' :
  registered V (reqs ++ reqs') = registered V reqs ++ registered V reqs'.
Proof. unfold registered. by rewrite omap_app. Qed.

(** No call of a publish goes through a capability other than the class of
    the published event. *)
Lemma published_after_capability e reqs c :
  c ∈ published e (after reqs) → capability c = typeid e.
Proof.
  rewrite published_after. intros Hc.
  apply list_elem_of_fmap in Hc as (listener & -> & _). done.
Qed.

(** The dispatcher a history leaves behind does not depend on the publishes
    of the history, nor on the world it ran in. *)
Lemma run_registrations_only reqs d w w' :
  (run reqs (d, w)).1 = (run (registrations_only reqs) (d, w')).1.
Proof.
  unfold registrations_only.
  induction reqs as [|r reqs IH] using rev_ind; [done|].
  rewrite filter_app, run_snoc.
  destruct r as [T listener|event]; simpl.
  - rewrite (filter_cons_True (λ r, Is_true (is_Register r))) by done.
    rewrite filter_nil, run_snoc. simpl. by rewrite IH.
  - rewrite (filter_cons_False (λ r, Is_true (is_Register r))) by (by intros []).
    rewrite filter_nil, app_nil_r, dispatchEvent_this. done.
Qed.

(** C1.  After any history of registrations and publishes, publishing an
    event of class [V] extends the world by the calls of that publish, and
    among them the handler of subscriber [S] for [V] is called exactly as
    often as the history registered [S] for [V].  Registrations are not
    deduplicated: two more registrations of [S] for [V] are two more
    registrations counted, and on a fresh dispatcher they give exactly two
    calls of the handler per publish. *)
Theorem C1_once_per_registration reqs S e w :
  (dispatchEvent e (after reqs) w).2 = w ++ published e (after reqs) ∧
  invocations S (typeid e) (published e (after reqs)) =
    registrations S (typeid e) reqs ∧
  registrations S (typeid e)
      (reqs ++ [Register (typeid e) S; Register (typeid e) S]) =
    registrations S (typeid e) reqs + 2 ∧
  published e (after [Register (typeid e) S; Register (typeid e) S]) =
    [mkCall S (typeid e) e; mkCall S (typeid e) e].
Proof.
  split_and!.
  - apply dispatchEvent_world.
  - rewrite published_after. apply invocations_fmap.
  - rewrite registrations_app. f_equal.
    unfold registrations, registered. simpl.
    rewrite !decide_True by done. simpl.
    by rewrite !filter_cons_True, filter_nil by done.
  - rewrite published_after. unfold registered. simpl.
    by rewrite !decide_True by done.
Qed.

(** C2.  Let [A] be a class other than the class of the published event
    [e].  After any history, no closure registered for [A] is in the vector
    the publish iterates over, and no call of the publish goes through
    capability [A], whatever the base classes of the two classes are.  So a
    subscriber registered for both classes has only its handler for the
    class of [e] called, in either order of registration. *)
Theorem C2_other_variant_not_invoked reqs e A S w (HA : A ≠ typeid e) :
  (∀ f, f ∈ entries (typeid e) (after reqs) → closure_T f ≠ A) ∧
  (∀ c, c ∈ published e (after reqs) → capability c ≠ A) ∧
  (dispatchEvent e (after [Register (typeid e) S; Register A S]) w).2 =
    w ++ [mkCall S (typeid e) e] ∧
  (dispatchEvent e (after [Register A S; Register (typeid e) S]) w).2 =
    w ++ [mkCall S (typeid e) e].
Proof.
  split_and!.
  - intros f Hf.
    pose proof (after_well_keyed (typeid e) reqs) as Hkeys.
    rewrite Forall_forall in Hkeys. rewrite (Hkeys f Hf). congruence.
  - intros c Hc. rewrite (published_after_capability _ _ _ Hc). congruence.
  - rewrite dispatchEvent_world, published_after.
    change [Register (typeid e) S; Register A S]
      with ([Register (typeid e) S] ++ [Register A S]
              : list (Request TypeIndex GameEvent Listener)).
    by rewrite registered_app, registered_Register_eq, registered_Register_ne.
  - rewrite dispatchEvent_world, published_after.
    change [Register A S; Register (typeid e) S]
      with ([Register A S] ++ [Register (typeid e) S]
              : list (Request TypeIndex GameEvent Listener)).
    by rewrite registered_app, registered_Register_eq, registered_Register_ne.
Qed.

(** C3.  After any history, one publish of [e] calls the handlers of the
    listeners registered for the class of [e], one call per registration,
    in the order of those registrations; a registration for another class
    [T], placed anywhere in the history, changes nothing in that
    sequence. *)
Theorem C3_registration_order reqs1 reqs2 T listener e w (HT : T ≠ typeid e) :
  dispatchEvent e (after (reqs1 ++ reqs2)) w =
    (after (reqs1 ++ reqs2),
     w ++ ((λ l, mkCall l (typeid e) e) <$>
             (registered (typeid e) reqs1 ++ registered (typeid e) reqs2))) ∧
  (dispatchEvent e (after (reqs1 ++ Register T listener :: reqs2)) w).2 =
    (dispatchEvent e (after (reqs1 ++ reqs2)) w).2.
Proof.
  split.
  - apply injective_projections; simpl.
    + apply dispatchEvent_this.
    + by rewrite dispatchEvent_world, published_after, registered_app.
  - rewrite !dispatchEvent_world, !published_after. do 2 f_equal.
    rewrite (registered_app _ reqs1 (_ :: _)).
    change (Register T listener :: reqs2)
      with ([Register T listener] ++ reqs2).
    by rewrite !registered_app, registered_Register_ne.
Qed.

(** C4.  When the table holds no entry for the class of the event (the key
    is absent, or its vector is empty), [dispatchEvent] returns the
    dispatcher and the world as they were: no handler is called. *)
Theorem C4_no_entries_no_effect d e w (Hnone : entries (typeid e) d = []) :
  dispatchEvent e d w = (d, w).
Proof. by rewrite dispatchEvent_entries, Hnone. Qed.

(** C5.  Let [B] be a proper base class of the class of the published
    event [e].  A closure registered for [B] would accept [e] (its cast
    succeeds and it would call its handler), yet after any history no such
    closure is in the vector the publish iterates over and no call goes
    through capability [B]: what a publish does depends on the vector keyed
    by the class of [e] alone, and one more registration for [B] leaves it
    as it was. *)
Theorem C5_no_hierarchy_delivery reqs e B S w
    (Hne : B ≠ typeid e) (Hbase : is_base_of B (typeid e) = true) :
  dynamic_cast B e = Some e ∧
  invoke (mkClosure B S) e w = w ++ [mkCall S B e] ∧
  (∀ f, f ∈ entries (typeid e) (after reqs) → closure_T f ≠ B) ∧
  (∀ c, c ∈ published e (after reqs) → capability c ≠ B) ∧
  (∀ d d', entries (typeid e) d = entries (typeid e) d' →
     (dispatchEvent e d w).2 = (dispatchEvent e d' w).2) ∧
  (dispatchEvent e (after (reqs ++ [Register B S])) w).2 =
    (dispatchEvent e (after reqs) w).2.
Proof.
  split_and!.
  - by apply dynamic_cast_base.
  - apply (invoke_hit (mkClosure B S)). by apply dynamic_cast_base.
  - intros f Hf.
    pose proof (after_well_keyed (typeid e) reqs) as Hkeys.
    rewrite Forall_forall in Hkeys. rewrite (Hkeys f Hf). congruence.
  - intros c Hc. rewrite (published_after_capability _ _ _ Hc). congruence.
  - intros d d' Hsame. rewrite !dispatchEvent_entries. simpl. by rewrite Hsame.
  - rewrite !dispatchEvent_world, !published_after.
    by rewrite registered_app, registered_Register_ne, app_nil_r.
Qed.

(** C6.  After any history of registrations and publishes, every closure
    that a publish of [e] reaches through the table lookup passes its
    narrowing check on [e]: the cast does not return null, and the closure
    calls its handler. *)
Theorem C6_narrowing_check_succeeds reqs e f w
    (Hf : f ∈ entries (typeid e) (after reqs)) :
  dynamic_cast (closure_T f) e = Some e ∧
  dynamic_cast (closure_T f) e ≠ None ∧
  invoke f e w = w ++ [mkCall (closure_listener f) (typeid e) e].
Proof.
  pose proof (after_well_keyed (typeid e) reqs) as Hkeys.
  rewrite Forall_forall in Hkeys. specialize (Hkeys f Hf).
  assert (dynamic_cast (closure_T f) e = Some e) as Hcast.
  { rewrite Hkeys. apply dynamic_cast_exact. }
  split_and!; [done|congruence|].
  rewrite invoke_hit by done. by rewrite Hkeys.
Qed.

(** C7.  A closure whose narrowing check fails on the event it is called
    with leaves the world as it was: no handler is called and nothing is
    raised.  A dispatcher whose vector for the class of the event holds
    just such a closure returns from the publish with the world
    unchanged. *)
Theorem C7_failed_check_skipped f e w
    (Hcast : dynamic_cast (closure_T f) e = None) :
  invoke f e w = w ∧
  (∀ d, entries (typeid e) d = [f] → dispatchEvent e d w = (d, w)).
Proof.
  split.
  - by apply invoke_miss.
  - intros d Hd. rewrite dispatchEvent_entries, Hd, for_each_cons, for_each_nil.
    by rewrite invoke_miss.
Qed.

(** C8.  [dispatchEvent] returns the dispatcher it was given, for every
    dispatcher, event and world; a key absent before the publish is absent
    after it.  [addEventListener] always changes the table, and the
    dispatcher a history leaves behind is the one its registrations alone
    leave behind. *)
Theorem C8_publish_read_only d e w T listener reqs w' :
  (dispatchEvent e d w).1 = d ∧
  listeners (dispatchEvent e d w).1 = listeners d ∧
  (listeners d !! typeid e = None →
     listeners (dispatchEvent e d w).1 !! typeid e = None) ∧
  listeners (addEventListener T listener d) ≠ listeners d ∧
  (run reqs (d, w)).1 = (run (registrations_only reqs) (d, w')).1.
Proof.
  split_and!.
  - apply dispatchEvent_this.
  - by rewrite dispatchEvent_this.
  - by rewrite dispatchEvent_this.
  - intros Heq.
    assert (length (entries T (addEventListener T listener d))
            = length (entries T d)) as Hlen.
    { unfold entries. by rewrite Heq. }
    rewrite entries_addEventListener, decide_True, length_app in Hlen by done.
    simpl in Hlen. lia.
  - apply run_registrations_only.
Qed.

(** C9.  Registering [listener] for [V] puts exactly one closure, the one
    capturing [V] and [listener], at the end of the vector keyed by [V];
    the closures already there keep their places, and the vector under any
    other key, present or not, is as before. *)
Theorem C9_register_appends d V listener :
  entries V (addEventListener V listener d) =
    entries V d ++ [mkClosure V listener] ∧
  length (entries V (addEventListener V listener d)) =
    length (entries V d) + 1 ∧
  (∀ i f, entries V d !! i = Some f →
     entries V (addEventListener V listener d) !! i = Some f) ∧
  (∀ K, K ≠ V →
     listeners (addEventListener V listener d) !! K = listeners d !! K).
Proof.
  assert (entries V (addEventListener V listener d) =
            entries V d ++ [mkClosure V listener]) as Happ.
  { by rewrite entries_addEventListener, decide_True. }
  split_and!.
  - done.
  - rewrite Happ, length_app. done.
  - intros i f Hi. rewrite Happ. by apply lookup_app_l_Some.
  - intros K HK. by rewrite lookup_addEventListener, decide_False.
Qed.

(** C10.  Two publishes of equal events on dispatchers whose tables have
    the same vector under every key make the same calls, in the same order
    and with the same event, whatever the worlds they start from. *)
Theorem C10_publish_deterministic d1 d2 e1 e2 w1 w2
    (Hd : ∀ K, listeners d1 !! K = listeners d2 !! K) (He : e1 = e2) :
  ∃ calls : list (Call TypeIndex GameEvent Listener),
    (dispatchEvent e1 d1 w1).2 = w1 ++ calls ∧
    (dispatchEvent e2 d2 w2).2 = w2 ++ calls ∧
    Forall (λ c, argument c = e1) calls.
Proof.
  subst e2. exists (published e1 d1). split_and!.
  - apply dispatchEvent_world.
  - rewrite dispatchEvent_world. f_equal.
    unfold published. rewrite !dispatchEvent_entries. simpl.
    unfold entries. by rewrite Hd.
  - unfold published. rewrite dispatchEvent_entries. simpl.
    generalize (entries (typeid e1) d1). intros v.
    induction v as [|f v IH] using rev_ind; [by constructor|].
    rewrite for_each_snoc. unfold invoke, onEvent.
    destruct (dynamic_cast (closure_T f) e1) as [e'|] eqn:Hcast; [|done].
    apply Forall_app. split; [done|].
    constructor; [|done]. simpl. by eapply dynamic_cast_Some.
Qed.

End dispatcher_claims.

(** * The example program *)

Section game.
Import Game.

Local Abbreviation history := (list (Request type_index Object EventListener)).

(** [main] prints, in this order: the movement listener and the player
    listener for the move, then the spawn listener and the player listener
    for the spawn. *)
Example main_calls :
  main [PlayerMovementListener; EnemySpawnListener; PlayerListener] =
    [mkCall PlayerMovementListener PlayerMoveEvent move_event;
     mkCall PlayerListener PlayerMoveEvent move_event;
     mkCall EnemySpawnListener EnemySpawnEvent spawn_event;
     mkCall PlayerListener EnemySpawnEvent spawn_event].
Proof. reflexivity. Qed.

Example main_runs_main_history :
  main [PlayerMovementListener; EnemySpawnListener; PlayerListener] =
    (run main_history (new_EventDispatcher, [])).2.
Proof. reflexivity. Qed.

(** C1 on the example: after [main] and one more registration of the player listener for moves, a move calls its move handler twice. *)
Lemma C1_once_per_registration_witness :
  invocations PlayerListener PlayerMoveEvent
    (published move_event
       (after (main_history ++ [Register PlayerMoveEvent PlayerListener]))) = 2 ∧
  published move_event
    (after ([Register PlayerMoveEvent PlayerListener;
             Register PlayerMoveEvent PlayerListener] : history)) =
    [mkCall PlayerListener PlayerMoveEvent move_event;
     mkCall PlayerListener PlayerMoveEvent move_event].
Proof.
  pose proof (C1_once_per_registration
                (main_history ++ [Register PlayerMoveEvent PlayerListener])
                PlayerListener move_event []) as (_ & Hcount & _ & _).
  pose proof (C1_once_per_registration [] PlayerListener move_event [])
    as (_ & _ & _ & Htwice).
  split; [etrans; [exact Hcount | reflexivity] | exact Htwice].
Defined.

(** C2 on the example: a move never goes through the spawn capability, also for the player listener, which has both. *)
Lemma C2_other_variant_not_invoked_witness :
  EnemySpawnEvent ≠ typeid move_event ∧
  (dispatchEvent move_event
     (after ([Register PlayerMoveEvent PlayerListener;
              Register EnemySpawnEvent PlayerListener] : history)) []).2 =
    [mkCall PlayerListener PlayerMoveEvent move_event] ∧
  (∀ c, c ∈ published move_event (after main_history) →
        capability c ≠ EnemySpawnEvent).
Proof.
  assert (EnemySpawnEvent ≠ typeid move_event) as HA by discriminate.
  pose proof (C2_other_variant_not_invoked main_history move_event
                EnemySpawnEvent PlayerListener [] HA) as (_ & Hcalls & Hboth & _).
  split_and!; [exact HA | exact Hboth | exact Hcalls].
Defined.

(** C3 on the example: a spawn registration between two move registrations leaves the order of the move handlers as registered. *)
Lemma C3_registration_order_witness :
  EnemySpawnEvent ≠ typeid move_event ∧
  dispatchEvent move_event
    (after ([Register PlayerMoveEvent PlayerMovementListener] ++
            Register EnemySpawnEvent EnemySpawnListener ::
            [Register PlayerMoveEvent PlayerListener] : history)) [] =
  (after ([Register PlayerMoveEvent PlayerMovementListener] ++
          Register EnemySpawnEvent EnemySpawnListener ::
          [Register PlayerMoveEvent PlayerListener] : history),
   [mkCall PlayerMovementListener PlayerMoveEvent move_event;
    mkCall PlayerListener PlayerMoveEvent move_event]).
Proof.
  assert (EnemySpawnEvent ≠ typeid move_event) as HT by discriminate.
  pose proof (C3_registration_order
                [Register PlayerMoveEvent PlayerMovementListener]
                [Register PlayerMoveEvent PlayerListener]
                EnemySpawnEvent EnemySpawnListener move_event [] HT)
    as [Horder Hsame].
  split; [exact HT|].
  apply injective_projections.
  - apply dispatchEvent_this.
  - etrans; [exact Hsame|]. etrans; [exact (f_equal snd Horder)|]. reflexivity.
Defined.

(** C4 on the example: a spawn published to a dispatcher that only knows a move listener. *)
Lemma C4_no_entries_no_effect_witness :
  entries (typeid spawn_event)
    (after ([Register PlayerMoveEvent PlayerMovementListener] : history)) = [] ∧
  dispatchEvent spawn_event
    (after ([Register PlayerMoveEvent PlayerMovementListener] : history)) [] =
  (after ([Register PlayerMoveEvent PlayerMovementListener] : history), []).
Proof.
  split; [reflexivity|].
  apply (C4_no_entries_no_effect
           (after ([Register PlayerMoveEvent PlayerMovementListener] : history))
           spawn_event []).
  reflexivity.
Defined.

(** C5 on the example: a listener registered for the base class [GameEvent] is not called for a move. *)
Lemma C5_no_hierarchy_delivery_witness :
  GameEvent ≠ typeid move_event ∧
  is_base_of GameEvent (typeid move_event) = true ∧
  dynamic_cast GameEvent move_event = Some move_event ∧
  (dispatchEvent move_event
     (after (([] : history) ++ [Register GameEvent PlayerListener])) []).2 = [].
Proof.
  assert (GameEvent ≠ typeid move_event) as Hne by discriminate.
  assert (is_base_of GameEvent (typeid move_event) = true) as Hbase
    by reflexivity.
  pose proof (C5_no_hierarchy_delivery ([] : history) move_event GameEvent
                PlayerListener [] Hne Hbase) as (Hcast & _ & _ & _ & _ & Hskip).
  split_and!; [exact Hne | exact Hbase | exact Hcast | exact Hskip].
Defined.

(** C6 on the example: the move closure of the player listener, reached by a move after [main]. *)
Lemma C6_narrowing_check_succeeds_witness :
  mkClosure PlayerMoveEvent PlayerListener
    ∈ entries (typeid move_event) (after main_history) ∧
  invoke (mkClosure PlayerMoveEvent PlayerListener) move_event [] =
    [mkCall PlayerListener PlayerMoveEvent move_event].
Proof.
  assert (mkClosure PlayerMoveEvent PlayerListener
            ∈ entries (typeid move_event) (after main_history)) as Hf.
  { apply list_elem_of_In. vm_compute. right. left. reflexivity. }
  split; [exact Hf|].
  apply (C6_narrowing_check_succeeds main_history move_event _ [] Hf).
Defined.

(** C7 on the example: a move closure called with a spawn. *)
Lemma C7_failed_check_skipped_witness :
  dynamic_cast
    (closure_T (mkClosure PlayerMoveEvent PlayerMovementListener))
    spawn_event = None ∧
  invoke (mkClosure PlayerMoveEvent PlayerMovementListener) spawn_event [] = [].
Proof.
  split; [reflexivity|].
  apply (C7_failed_check_skipped
           (mkClosure PlayerMoveEvent PlayerMovementListener) spawn_event []).
  reflexivity.
Defined.

(** C8 on the example: a move published to a fresh dispatcher creates no key, and the publishes of [main] leave the table alone. *)
Lemma C8_publish_read_only_witness :
  listeners (after ([] : history)) !! typeid move_event = None ∧
  listeners (dispatchEvent move_event (after ([] : history)) []).1
    !! typeid move_event = None ∧
  (run main_history (new_EventDispatcher, [])).1 =
    (run (registrations_only main_history) (new_EventDispatcher, [])).1.
Proof.
  pose proof (C8_publish_read_only new_EventDispatcher move_event []
                PlayerMoveEvent PlayerListener main_history [])
    as (_ & _ & Habsent & _ & Hrun).
  split_and!; [reflexivity | apply Habsent; reflexivity | exact Hrun].
Defined.

(** C9 on the example: one more move registration after [main]. *)
Lemma C9_register_appends_witness :
  EnemySpawnEvent ≠ PlayerMoveEvent ∧
  entries PlayerMoveEvent
    (addEventListener PlayerMoveEvent PlayerListener (after main_history)) =
    [mkClosure PlayerMoveEvent PlayerMovementListener;
     mkClosure PlayerMoveEvent PlayerListener;
     mkClosure PlayerMoveEvent PlayerListener] ∧
  listeners
    (addEventListener PlayerMoveEvent PlayerListener (after main_history))
    !! EnemySpawnEvent = listeners (after main_history) !! EnemySpawnEvent.
Proof.
  assert (EnemySpawnEvent ≠ PlayerMoveEvent) as HK by discriminate.
  pose proof (C9_register_appends (after main_history) PlayerMoveEvent
                PlayerListener) as (Happ & _ & _ & Hother).
  split_and!; [exact HK | etrans; [exact Happ | reflexivity] | exact (Hother _ HK)].
Defined.

(** C10 on the example: two histories that build the same table, and two different prior worlds. *)
Lemma C10_publish_deterministic_witness :
  (∀ K,
     listeners (after ([Register PlayerMoveEvent PlayerMovementListener;
                        Publish move_event;
                        Register EnemySpawnEvent EnemySpawnListener] : history))
       !! K =
     listeners (after ([Register EnemySpawnEvent EnemySpawnListener;
                        Register PlayerMoveEvent PlayerMovementListener] : history))
       !! K) ∧
  ∃ calls,
    (dispatchEvent move_event
       (after ([Register PlayerMoveEvent PlayerMovementListener;
                Publish move_event;
                Register EnemySpawnEvent EnemySpawnListener] : history))
       []).2 = [] ++ calls ∧
    (dispatchEvent move_event
       (after ([Register EnemySpawnEvent EnemySpawnListener;
                Register PlayerMoveEvent PlayerMovementListener] : history))
       [mkCall PlayerListener EnemySpawnEvent spawn_event]).2 =
      [mkCall PlayerListener EnemySpawnEvent spawn_event] ++ calls ∧
    Forall (λ c, argument c = move_event) calls.
Proof.
  assert (∀ K,
     listeners (after ([Register PlayerMoveEvent PlayerMovementListener;
                        Publish move_event;
                        Register EnemySpawnEvent EnemySpawnListener] : history))
       !! K =
     listeners (after ([Register EnemySpawnEvent EnemySpawnListener;
                        Register PlayerMoveEvent PlayerMovementListener] : history))
       !! K) as Hd.
  { intros K. destruct K; reflexivity. }
  split; [exact Hd|].
  apply (C10_publish_deterministic _ _ move_event move_event [] _ Hd eq_refl).
Defined.

End game.

(** * Further properties of the dispatcher *)

Section dispatcher_more.
Context {TypeIndex : Type} `{Countable TypeIndex}.
Context {GameEvent : Type} `{!Polymorphic TypeIndex GameEvent}.
Context {Listener : Type}.

Implicit Types (T V A B K : TypeIndex) (e event : GameEvent) (S listener : Listener).
Implicit Types (f : Closure TypeIndex Listener).
Implicit Types (v : list (Closure TypeIndex Listener)).
Implicit Types (w : World TypeIndex GameEvent Listener).
Implicit Types (this d : EventDispatcher TypeIndex Listener).
Implicit Types (reqs : list (Request TypeIndex GameEvent Listener)).

Lemma run_app reqs reqs' s : run (reqs ++ reqs') s = run reqs' (run reqs s).
Proof. unfold run. by rewrite foldl_app. Qed.

Lemma run_cons r reqs s : run (r :: reqs) s = run reqs (step s r).
Proof. done. Qed.

(** A history made of registrations makes no call. *)
Lemma run_registrations_world reqs d w :
  Forall (λ r, is_Register r) reqs → (run reqs (d, w)).2 = w.
Proof.
  intros Hregs. revert d.
  induction Hregs as [|r reqs Hr _ IH]; intros d; [done|].
  destruct r as [T listener|event]; [|done].
  rewrite run_cons. simpl. apply IH.
Qed.

(** A key that is present stays present, and its vector is only ever
    extended at the end. *)
Lemma lookup_run_Some K reqs d w v :
  listeners d !! K = Some v →
  listeners (run reqs (d, w)).1 !! K =
    Some (v ++ (mkClosure K <$> registered K reqs)).
Proof.
  intros Hv. induction reqs as [|r reqs IH] using rev_ind.
  - simpl. by rewrite app_nil_r.
  - rewrite run_snoc, registered_snoc, fmap_app, app_assoc.
    destruct r as [T listener|event]; cbn [step fst snd].
    + rewrite lookup_addEventListener.
      destruct (decide (T = K)) as [->|Hne].
      * rewrite registered_Register_eq. unfold entries. by rewrite IH.
      * rewrite registered_Register_ne by done. simpl. by rewrite app_nil_r.
    + rewrite dispatchEvent_this. simpl. by rewrite app_nil_r.
Qed.

(** No vector of a dispatcher built through the interface is empty. *)
Lemma after_no_empty_vector K reqs v :
  listeners (after reqs) !! K = Some v → v ≠ [].
Proof.
  unfold after. revert v.
  induction reqs as [|r reqs IH] using rev_ind; intros v.
  - simpl. by rewrite lookup_empty.
  - rewrite run_snoc. destruct r as [T listener|event]; cbn [step fst snd].
    + rewrite lookup_addEventListener.
      destruct (decide (T = K)) as [->|Hne]; [|apply IH].
      intros [= <-]. by destruct (entries K _).
    + rewrite dispatchEvent_this. apply IH.
Qed.

Lemma closure_count_addEventListener T listener d :
  closure_count (addEventListener T listener d) = closure_count d + 1.
Proof.
  unfold closure_count, addEventListener. simpl.
  destruct (listeners d !! T) as [v|] eqn:Hv; simpl.
  - rewrite <-insert_delete_eq.
    rewrite map_fold_insert_L;
      [|intros; lia|apply lookup_delete_eq].
    rewrite (map_fold_delete_L _ _ T v (listeners d));
      [|intros; lia|done].
    rewrite length_app. simpl. lia.
  - rewrite map_fold_insert_L; [|intros; lia|done]. simpl. lia.
Qed.

(** X1.  After any history on a fresh dispatcher, a key is absent from the
    table exactly when the history registered no listener for it; a key
    that is present holds a non-empty vector, which is the closures of the
    listeners registered for that key in registration order. *)
Theorem key_present_iff_registered reqs K :
  (listeners (after reqs) !! K = None ↔ registered K reqs = []) ∧
  (∀ v, listeners (after reqs) !! K = Some v →
        v ≠ [] ∧ v = mkClosure K <$> registered K reqs).
Proof.
  pose proof (entries_after (GameEvent:=GameEvent) K reqs) as Hentries.
  unfold entries in Hentries.
  destruct (listeners (after reqs) !! K) as [v|] eqn:Hv; simpl in Hentries.
  - pose proof (after_no_empty_vector _ _ _ Hv) as Hne.
    split.
    + split; [done|]. intros Hnil. rewrite Hnil in Hentries. done.
    + by intros ? [= <-].
  - split; [|done]. split; [|done]. intros _.
    symmetry in Hentries. by apply fmap_nil_inv in Hentries.
Qed.

(** X2.  From any dispatcher and through any history, nothing is removed
    from the table or moved within it: a key that was present is still
    present, and the vector under every key starts with the vector that
    was there before. *)
Theorem table_only_grows reqs d w K :
  entries K d `prefix_of` entries K (run reqs (d, w)).1 ∧
  (∀ v, listeners d !! K = Some v →
        ∃ v', listeners (run reqs (d, w)).1 !! K = Some (v ++ v')).
Proof.
  split.
  - rewrite entries_run. by eexists.
  - intros v Hv. eexists. by apply lookup_run_Some.
Qed.

(** X3.  Every registration adds exactly one closure to the table and a
    publish adds none: through any history the number of stored closures
    grows by the number of [Register] requests. *)
Theorem closure_count_run reqs d w :
  closure_count (run reqs (d, w)).1 =
    closure_count d + length (registrations_only reqs).
Proof.
  unfold registrations_only.
  induction reqs as [|r reqs IH] using rev_ind; [simpl; lia|].
  rewrite run_snoc, filter_app, length_app.
  destruct r as [T listener|event]; cbn [step fst snd].
  - rewrite closure_count_addEventListener, IH.
    rewrite (filter_cons_True (λ r, Is_true (is_Register r))) by done.
    rewrite filter_nil. simpl. lia.
  - rewrite dispatchEvent_this, IH.
    rewrite (filter_cons_False (λ r, Is_true (is_Register r))) by (by intros []).
    rewrite filter_nil. simpl. lia.
Qed.

(** X4.  Two registrations can be swapped without changing the table
    exactly when they are for different classes or register the same
    listener: across classes the order of registration is not recorded,
    within a class it is. *)
Theorem addEventListener_commute A B listener listener' d :
  addEventListener A listener (addEventListener B listener' d) =
    addEventListener B listener' (addEventListener A listener d)
  ↔ A ≠ B ∨ listener = listener'.
Proof.
  split.
  - intros Heq. destruct (decide (A = B)) as [->|Hne]; [right|by left].
    apply (f_equal (entries B)) in Heq.
    rewrite !entries_addEventListener, !decide_True in Heq by done.
    rewrite <-!app_assoc in Heq. apply app_inv_head in Heq.
    simpl in Heq. congruence.
  - intros [Hne| ->].
    + unfold addEventListener. simpl. f_equal.
      rewrite !lookup_insert_ne by done.
      by rewrite insert_insert_ne.
    + destruct (decide (A = B)) as [->|Hne]; [done|].
      unfold addEventListener. simpl. f_equal.
      rewrite !lookup_insert_ne by done.
      by rewrite insert_insert_ne.
Qed.

(** X5.  Publishing does not use up registrations: [n] publishes of the
    same event in a row leave the dispatcher as it was and make the calls
    of one publish [n] times over. *)
Theorem publish_repeats n e d w :
  run (replicate n (Publish e)) (d, w) =
    (d, w ++ concat (replicate n (published e d))).
Proof.
  revert w. induction n as [|n IH]; intros w.
  - simpl. by rewrite app_nil_r.
  - rewrite !replicate_S, run_cons. simpl.
    rewrite (surjective_pairing (dispatchEvent e d w)).
    rewrite dispatchEvent_this, dispatchEvent_world, IH.
    by rewrite app_assoc.
Qed.

(** X6.  Delivery is immediate and never replayed: the calls a publish
    makes are those of the listeners registered for the class of the event
    before the publish, and registrations that follow it add no call. *)
Theorem no_replay reqs1 reqs2 e
    (Hregs : Forall (λ r, is_Register r) reqs2) :
  (run (reqs1 ++ Publish e :: reqs2) (new_EventDispatcher, [])).2 =
    (run reqs1 (new_EventDispatcher, [])).2 ++
      ((λ listener, mkCall listener (typeid e) e) <$>
         registered (typeid e) reqs1).
Proof.
  rewrite run_app, run_cons.
  rewrite (surjective_pairing (step _ _)).
  rewrite run_registrations_world by done.
  simpl. rewrite dispatchEvent_world.
  by rewrite <-(published_after e reqs1).
Qed.

End dispatcher_more.

(** * The registration loop and [main] of the example program *)

Section game_main.
Import Game.

Local Abbreviation dispatcher := (EventDispatcher type_index EventListener).
Local Abbreviation history := (list (Request type_index Object EventListener)).

Implicit Types (d : dispatcher) (multibindings : list EventListener).
Implicit Types (listener : EventListener) (K : type_index).

(** Which branches of the loop body are taken, per listener class. *)
Lemma register_listener_PlayerMovementListener d :
  register_listener d PlayerMovementListener =
    addEventListener PlayerMoveEvent PlayerMovementListener d.
Proof. reflexivity. Qed.

Lemma register_listener_EnemySpawnListener d :
  register_listener d EnemySpawnListener =
    addEventListener EnemySpawnEvent EnemySpawnListener d.
Proof. reflexivity. Qed.

Lemma register_listener_PlayerListener d :
  register_listener d PlayerListener =
    addEventListener EnemySpawnEvent PlayerListener
      (addEventListener PlayerMoveEvent PlayerListener d).
Proof. reflexivity. Qed.

(** One pass of the loop body appends, under each key, the closure of the
    listener when its class handles that key. *)
Lemma entries_register_listener d listener K :
  entries K (register_listener d listener) =
    entries K d ++ (mkClosure K <$> filter (λ l, handles l K) [listener]).
Proof.
  destruct listener.
  - rewrite register_listener_PlayerMovementListener, entries_addEventListener.
    destruct K; simpl; by rewrite ?app_nil_r.
  - rewrite register_listener_EnemySpawnListener, entries_addEventListener.
    destruct K; simpl; by rewrite ?app_nil_r.
  - rewrite register_listener_PlayerListener, !entries_addEventListener.
    destruct K; simpl; by rewrite ?app_nil_r.
Qed.

Lemma entries_registration_loop d multibindings K :
  entries K (foldl register_listener d multibindings) =
    entries K d ++
      (mkClosure K <$> filter (λ l, handles l K) multibindings).
Proof.
  induction multibindings as [|listener mb IH] using rev_ind.
  - simpl. by rewrite app_nil_r.
  - rewrite foldl_app, filter_app, fmap_app, app_assoc, <-IH.
    apply entries_register_listener.
Qed.

Lemma lookup_GameEvent_registration_loop d multibindings :
  listeners (foldl register_listener d multibindings) !! GameEvent =
    listeners d !! GameEvent.
Proof.
  induction multibindings as [|listener mb IH] using rev_ind; [done|].
  rewrite foldl_app. cbn [foldl]. rewrite <-IH.
  destruct listener.
  - rewrite register_listener_PlayerMovementListener.
    by rewrite lookup_addEventListener, decide_False.
  - rewrite register_listener_EnemySpawnListener.
    by rewrite lookup_addEventListener, decide_False.
  - rewrite register_listener_PlayerListener.
    by rewrite !lookup_addEventListener, !decide_False.
Qed.

(** The calls of [main], for any multibindings. *)
Lemma main_spec multibindings :
  main multibindings =
    ((λ l, mkCall l PlayerMoveEvent move_event) <$>
       filter (λ l, handles l PlayerMoveEvent) multibindings) ++
    ((λ l, mkCall l EnemySpawnEvent spawn_event) <$>
       filter (λ l, handles l EnemySpawnEvent) multibindings).
Proof.
  unfold main. cbv zeta.
  rewrite (dispatchEvent_entries move_event).
  rewrite (dispatchEvent_entries spawn_event).
  change (typeid move_event) with PlayerMoveEvent.
  change (typeid spawn_event) with EnemySpawnEvent.
  rewrite !entries_registration_loop.
  change (entries _ new_EventDispatcher)
    with ([] : list (Closure type_index EventListener)).
  rewrite !app_nil_l.
  rewrite (for_each_exact _ spawn_event)
    by (apply Forall_fmap, Forall_true; done).
  rewrite (for_each_exact _ move_event)
    by (apply Forall_fmap, Forall_true; done).
  by rewrite <-!list_fmap_compose.
Qed.

Lemma handles_some listener :
  handles listener PlayerMoveEvent ∨ handles listener EnemySpawnEvent.
Proof. destruct listener; simpl; auto. Qed.

(** X7.  For any list of multibindings, the registration loop of [main]
    leaves under each event class the closures of exactly the listeners
    whose class handles it, in multibinding order, and creates no key for
    the base class [GameEvent]. *)
Theorem registration_loop_table multibindings K :
  entries K (foldl register_listener new_EventDispatcher multibindings) =
    mkClosure K <$> filter (λ l, handles l K) multibindings ∧
  listeners (foldl register_listener new_EventDispatcher multibindings)
    !! GameEvent = None.
Proof.
  split.
  - by rewrite entries_registration_loop.
  - by rewrite lookup_GameEvent_registration_loop.
Qed.

(** X8.  For any list of multibindings, [main] first calls the move
    handler of every listener that handles moves, in multibinding order,
    then the spawn handler of every listener that handles spawns, in
    multibinding order; that is one call per multibinding and one more per
    [PlayerListener]. *)
Theorem main_output multibindings :
  main multibindings =
    ((λ l, mkCall l PlayerMoveEvent move_event) <$>
       filter (λ l, handles l PlayerMoveEvent) multibindings) ++
    ((λ l, mkCall l EnemySpawnEvent spawn_event) <$>
       filter (λ l, handles l EnemySpawnEvent) multibindings) ∧
  length (main multibindings) =
    length multibindings + length (filter (PlayerListener =.) multibindings).
Proof.
  split; [apply main_spec|].
  rewrite main_spec, length_app, !length_fmap.
  induction multibindings as [|listener mb IH]; [done|].
  destruct listener.
  - rewrite (filter_cons_True (λ l, Is_true (handles l PlayerMoveEvent)))
      by done.
    rewrite (filter_cons_False (λ l, Is_true (handles l EnemySpawnEvent)))
      by (simpl; tauto).
    rewrite (filter_cons_False (eq PlayerListener)) by done.
    simpl. lia.
  - rewrite (filter_cons_False (λ l, Is_true (handles l PlayerMoveEvent)))
      by (simpl; tauto).
    rewrite (filter_cons_True (λ l, Is_true (handles l EnemySpawnEvent)))
      by done.
    rewrite (filter_cons_False (eq PlayerListener)) by done.
    simpl. lia.
  - rewrite (filter_cons_True (λ l, Is_true (handles l PlayerMoveEvent)))
      by done.
    rewrite (filter_cons_True (λ l, Is_true (handles l EnemySpawnEvent)))
      by done.
    rewrite (filter_cons_True (eq PlayerListener)) by done.
    simpl. lia.
Qed.

(** X9.  [main] calls a handler of a listener exactly when the listener is
    among the multibindings: every bound listener receives at least one of
    the two events, and no one else is called. *)
Theorem main_calls_every_binding multibindings listener :
  listener ∈ multibindings ↔
  ∃ c, c ∈ main multibindings ∧ callee c = listener.
Proof.
  rewrite main_spec. split.
  - intros Hin. destruct (handles_some listener) as [Hmove|Hspawn].
    + exists (mkCall listener PlayerMoveEvent move_event). split; [|done].
      apply elem_of_app. left.
      apply list_elem_of_fmap. exists listener. split; [done|].
      by apply list_elem_of_filter.
    + exists (mkCall listener EnemySpawnEvent spawn_event). split; [|done].
      apply elem_of_app. right.
      apply list_elem_of_fmap. exists listener. split; [done|].
      by apply list_elem_of_filter.
  - intros (c & Hc & <-).
    apply elem_of_app in Hc as [Hc|Hc];
      apply list_elem_of_fmap in Hc as (l & -> & Hl);
      apply list_elem_of_filter in Hl as [_ Hl]; done.
Qed.

(** X10.  The order in which the injector returns the multibindings only
    permutes the calls of [main]: two orders of the same multibindings
    give the same calls up to order. *)
Theorem main_permutation multibindings multibindings'
    (Hperm : multibindings ≡ₚ multibindings') :
  main multibindings ≡ₚ main multibindings'.
Proof. rewrite !main_spec. by rewrite Hperm. Qed.

(** X11.  Every call [main] makes is well typed: the class of the listener
    called declares the capability the call goes through, and the event
    passed is of exactly the class of that capability. *)
Theorem main_calls_well_typed multibindings c
    (Hc : c ∈ main multibindings) :
  handles (callee c) (capability c) ∧ typeid (argument c) = capability c.
Proof.
  rewrite main_spec in Hc.
  apply elem_of_app in Hc as [Hc|Hc];
    apply list_elem_of_fmap in Hc as (l & -> & Hl);
    apply list_elem_of_filter in Hl as [Hl _]; done.
Qed.

End game_main.

(** * The further properties on the example program *)

Section game_more.
Import Game.

Local Abbreviation history := (list (Request type_index Object EventListener)).

(** X1 on the example: [main] registers nobody for [GameEvent], so that key
    is absent; the vector under [PlayerMoveEvent] is not empty. *)
Lemma key_present_iff_registered_witness :
  registered GameEvent main_history = [] ∧
  listeners (after main_history) !! GameEvent = None ∧
  listeners (after main_history) !! PlayerMoveEvent =
    Some [mkClosure PlayerMoveEvent PlayerMovementListener;
          mkClosure PlayerMoveEvent PlayerListener] ∧
  [mkClosure PlayerMoveEvent PlayerMovementListener;
   mkClosure PlayerMoveEvent PlayerListener] ≠ [].
Proof.
  pose proof (key_present_iff_registered main_history GameEvent)
    as [Habsent _].
  pose proof (key_present_iff_registered main_history PlayerMoveEvent)
    as [_ Hpresent].
  assert (listeners (after main_history) !! PlayerMoveEvent =
            Some [mkClosure PlayerMoveEvent PlayerMovementListener;
                  mkClosure PlayerMoveEvent PlayerListener]) as Hv
    by reflexivity.
  split_and!;
    [reflexivity | apply Habsent; reflexivity | exact Hv
    | exact (proj1 (Hpresent _ Hv))].
Defined.

(** X2 on the example: the vector registered before [main] runs is still
    the front of the vector afterwards. *)
Lemma table_only_grows_witness :
  listeners (after ([Register PlayerMoveEvent PlayerListener] : history))
    !! PlayerMoveEvent = Some [mkClosure PlayerMoveEvent PlayerListener] ∧
  ∃ v',
    listeners
      (run main_history
         (after ([Register PlayerMoveEvent PlayerListener] : history), [])).1
      !! PlayerMoveEvent =
    Some ([mkClosure PlayerMoveEvent PlayerListener] ++ v').
Proof.
  assert (listeners (after ([Register PlayerMoveEvent PlayerListener] : history))
            !! PlayerMoveEvent = Some [mkClosure PlayerMoveEvent PlayerListener])
    as Hv by reflexivity.
  split; [exact Hv|].
  exact (proj2 (table_only_grows main_history _ [] PlayerMoveEvent) _ Hv).
Defined.

(** X4 on the example: the first two registrations of [main] can be
    swapped. *)
Lemma addEventListener_commute_witness :
  PlayerMoveEvent ≠ EnemySpawnEvent ∧
  addEventListener PlayerMoveEvent PlayerMovementListener
    (addEventListener EnemySpawnEvent EnemySpawnListener new_EventDispatcher) =
  addEventListener EnemySpawnEvent EnemySpawnListener
    (addEventListener PlayerMoveEvent PlayerMovementListener new_EventDispatcher).
Proof.
  assert (PlayerMoveEvent ≠ EnemySpawnEvent) as Hne by discriminate.
  split; [exact Hne|].
  apply (proj2 (addEventListener_commute PlayerMoveEvent EnemySpawnEvent
                  PlayerMovementListener EnemySpawnListener
                  new_EventDispatcher)).
  left. exact Hne.
Defined.

(** X6 on the example: the player listener, registered after the move was
    published, is not called for it. *)
Lemma no_replay_witness :
  Forall (λ r, is_Register r)
    ([Register PlayerMoveEvent PlayerListener] : history) ∧
  (run ([Register PlayerMoveEvent PlayerMovementListener] ++
        Publish move_event :: [Register PlayerMoveEvent PlayerListener])
     (new_EventDispatcher, [])).2 =
    [mkCall PlayerMovementListener PlayerMoveEvent move_event].
Proof.
  assert (Forall (λ r, is_Register r)
            ([Register PlayerMoveEvent PlayerListener] : history)) as Hregs.
  { repeat constructor. }
  split; [exact Hregs|].
  etrans; [exact (no_replay
                    [Register PlayerMoveEvent PlayerMovementListener]
                    [Register PlayerMoveEvent PlayerListener]
                    move_event Hregs)|].
  reflexivity.
Defined.

(** X9 on the example: the player listener is bound, so [main] calls it. *)
Lemma main_calls_every_binding_witness :
  PlayerListener ∈ [PlayerMovementListener; EnemySpawnListener; PlayerListener] ∧
  ∃ c, c ∈ main [PlayerMovementListener; EnemySpawnListener; PlayerListener]
       ∧ callee c = PlayerListener.
Proof.
  assert (PlayerListener
            ∈ [PlayerMovementListener; EnemySpawnListener; PlayerListener])
    as Hin.
  { apply list_elem_of_In. right. right. left. reflexivity. }
  split; [exact Hin|].
  exact (proj1 (main_calls_every_binding _ _) Hin).
Defined.

(** X10 on the example: the player listener returned first instead of
    last. *)
Lemma main_permutation_witness :
  [PlayerListener; PlayerMovementListener; EnemySpawnListener]
    ≡ₚ [PlayerMovementListener; EnemySpawnListener; PlayerListener] ∧
  main [PlayerListener; PlayerMovementListener; EnemySpawnListener]
    ≡ₚ main [PlayerMovementListener; EnemySpawnListener; PlayerListener].
Proof.
  assert ([PlayerListener; PlayerMovementListener; EnemySpawnListener]
            ≡ₚ [PlayerMovementListener; EnemySpawnListener; PlayerListener])
    as Hperm.
  { apply (Permutation_cons_append
             [PlayerMovementListener; EnemySpawnListener] PlayerListener). }
  split; [exact Hperm|].
  exact (main_permutation _ _ Hperm).
Defined.

(** X11 on the example: the spawn call to the player listener. *)
Lemma main_calls_well_typed_witness :
  mkCall PlayerListener EnemySpawnEvent spawn_event
    ∈ main [PlayerMovementListener; EnemySpawnListener; PlayerListener] ∧
  handles PlayerListener EnemySpawnEvent ∧
  typeid spawn_event = EnemySpawnEvent.
Proof.
  assert (mkCall PlayerListener EnemySpawnEvent spawn_event
            ∈ main [PlayerMovementListener; EnemySpawnListener; PlayerListener])
    as Hc.
  { apply list_elem_of_In. vm_compute. right. right. right. left. reflexivity. }
  split; [exact Hc|].
  exact (main_calls_well_typed _ _ Hc).
Defined.

End game_more.
